(** * pg_stub: stand-ins for PostgreSQL server symbols

    A shallow embedding of [scripts/pg_stub.c] and the properties of its
    globals and functions.

    The C objects the file defines or may be handed by a caller live in a
    memory of typed cells.  Every stand-in is a computation in a small
    state-and-failure monad over that memory: [None] is undefined behaviour
    (a store through a pointer that does not designate an [int] object),
    [Some (r, m')] is a normal return of [r] in the memory [m'].  *)

From Stdlib Require Import ZArith List Lia.
From stdpp Require Import base decidable countable gmap strings.

Local Open Scope Z_scope.

(** ** Memory model *)

(** The thirteen objects with external linkage that the file defines. *)
Inductive global : Set :=
| CacheMemoryContext
| CurrentMemoryContext
| CurTransactionContext
| ErrorContext
| MessageContext
| PortalContext
| PostmasterContext
| TopMemoryContext
| TopTransactionContext
| error_context_stack
| PG_exception_stack
| SPI_processed
| SPI_tuptable.

#[global] Instance global_eq_dec : EqDecision global.
Proof. solve_decision. Defined.

Definition global_index (g : global) : nat :=
  match g with
  | CacheMemoryContext => 0 | CurrentMemoryContext => 1
  | CurTransactionContext => 2 | ErrorContext => 3
  | MessageContext => 4 | PortalContext => 5
  | PostmasterContext => 6 | TopMemoryContext => 7
  | TopTransactionContext => 8 | error_context_stack => 9
  | PG_exception_stack => 10 | SPI_processed => 11
  | SPI_tuptable => 12
  end%nat.

Definition global_of_index (n : nat) : global :=
  match n with
  | 0 => CacheMemoryContext | 1 => CurrentMemoryContext
  | 2 => CurTransactionContext | 3 => ErrorContext
  | 4 => MessageContext | 5 => PortalContext
  | 6 => PostmasterContext | 7 => TopMemoryContext
  | 8 => TopTransactionContext | 9 => error_context_stack
  | 10 => PG_exception_stack | 11 => SPI_processed
  | _ => SPI_tuptable
  end%nat.

#[global] Instance global_countable : Countable global.
Proof.
  refine (inj_countable' global_index global_of_index _); by intros [].
Defined.

(** A location designates one C object: a global of this file, or an
    object owned by the caller (a local, a heap block, a string literal). *)
Inductive loc : Set :=
| GlobalAddr (g : global)
| ObjAddr (b : positive).

#[global] Instance loc_eq_dec : EqDecision loc.
Proof. solve_decision. Defined.

#[global] Instance loc_countable : Countable loc.
Proof.
  refine (inj_countable'
    (λ l, match l with GlobalAddr g => inl g | ObjAddr b => inr b end)
    (λ s, match s with inl g => GlobalAddr g | inr b => ObjAddr b end) _);
    by intros [].
Defined.

(** A pointer value is the null pointer or the address of an object. *)
Inductive ptr : Set :=
| NULL
| Addr (l : loc).

#[global] Instance ptr_eq_dec : EqDecision ptr.
Proof. solve_decision. Defined.

(** The C types that occur in the file. *)
Inductive ctype : Set :=
| Tpointer        (* void *, char *, int * *)
| Tint            (* int, int32_t *)
| Tlong           (* long *)
| Tsize_t         (* size_t *)
| Tuint32         (* uint32_t *)
| Tuint64         (* uint64_t *)
| Tchars.         (* a char array, the target of a const char * *)

#[global] Instance ctype_eq_dec : EqDecision ctype.
Proof. solve_decision. Defined.

(** The contents of a memory cell, tagged with the type of the object. *)
Inductive val : Set :=
| Vptr (p : ptr)
| Vint (n : Z)
| Vlong (n : Z)
| Vsize_t (n : Z)
| Vuint32 (n : Z)
| Vuint64 (n : Z)
| Vchars (s : string).

#[global] Instance val_eq_dec : EqDecision val.
Proof. solve_decision. Defined.

Definition type_of (v : val) : ctype :=
  match v with
  | Vptr _ => Tpointer
  | Vint _ => Tint
  | Vlong _ => Tlong
  | Vsize_t _ => Tsize_t
  | Vuint32 _ => Tuint32
  | Vuint64 _ => Tuint64
  | Vchars _ => Tchars
  end.

Abbreviation mem := (gmap loc val).

(** ** The monad of C function bodies *)

Definition M (A : Type) : Type := mem → option (A * mem).

#[global] Instance M_ret : MRet M := λ A (a : A) (m : mem), Some (a, m).

#[global] Instance M_bind : MBind M := λ A B (k : A → M B) (c : M A) (m : mem),
  match c m with
  | Some (a, m') => k a m'
  | None => None
  end.

(** [(void)e;] evaluates an argument and discards it. *)
Definition void_cast {A : Type} (e : A) : M unit := mret tt.

(** The truth value of a pointer in a condition: [if (p)]. *)
Definition ptr_is_true (p : ptr) : bool :=
  match p with
  | NULL => false
  | Addr _ => true
  end.

(** [*p = n;] for [int *p].  Defined only when [p] designates an [int]
    object of the memory. *)
Definition store_int (p : ptr) (n : Z) : M unit := λ m,
  match p with
  | NULL => None
  | Addr l =>
      match m !! l with
      | Some (Vint _) => Some (tt, <[l := Vint n]> m)
      | _ => None
      end
  end.

(** ** Globals *)

Module Globals.

Definition all : list global :=
  [ CacheMemoryContext; CurrentMemoryContext; CurTransactionContext;
    ErrorContext; MessageContext; PortalContext; PostmasterContext;
    TopMemoryContext; TopTransactionContext;
    error_context_stack; PG_exception_stack;
    SPI_processed; SPI_tuptable ].

(** The declared type of each global. *)
Definition declared_type (g : global) : ctype :=
  match g with
  | SPI_processed => Tuint64
  | _ => Tpointer
  end.

(** The initializer of each definition. *)
Definition initializer (g : global) : val :=
  match g with
  | CacheMemoryContext => Vptr NULL
  | CurrentMemoryContext => Vptr NULL
  | CurTransactionContext => Vptr NULL
  | ErrorContext => Vptr NULL
  | MessageContext => Vptr NULL
  | PortalContext => Vptr NULL
  | PostmasterContext => Vptr NULL
  | TopMemoryContext => Vptr NULL
  | TopTransactionContext => Vptr NULL
  | error_context_stack => Vptr NULL
  | PG_exception_stack => Vptr NULL
  | SPI_processed => Vuint64 0
  | SPI_tuptable => Vptr NULL
  end.

(** The memory right after the library is loaded. *)
Definition init_mem : mem :=
  foldr (λ g m, <[GlobalAddr g := initializer g]> m) ∅ all.

(** The null or zero value of a type. *)
Definition zero_of (t : ctype) : val :=
  match t with
  | Tpointer => Vptr NULL
  | Tint => Vint 0
  | Tlong => Vlong 0
  | Tsize_t => Vsize_t 0
  | Tuint32 => Vuint32 0
  | Tuint64 => Vuint64 0
  | Tchars => Vchars EmptyString
  end.

(** Every global holds an object of its declared type. *)
Definition well_typed (m : mem) : Prop :=
  ∀ g, ∃ v, m !! GlobalAddr g = Some v ∧ type_of v = declared_type g.

End Globals.

(** ** The stand-in functions *)

(** *** Memory allocation functions *)

Definition palloc0 (size : Z) : M ptr :=
  void_cast size;; mret NULL.

(** *** MemoryContext functions *)

Definition AllocSetContextCreateInternal
    (parent name : ptr) (minContextSize initBlockSize maxBlockSize : Z)
    : M ptr :=
  void_cast parent;; void_cast name;;
  void_cast minContextSize;; void_cast initBlockSize;;
  void_cast maxBlockSize;;
  mret NULL.

Definition MemoryContextDelete (ctx : ptr) : M unit :=
  void_cast ctx.

Definition MemoryContextGetParent (ctx : ptr) : M ptr :=
  void_cast ctx;; mret NULL.

Definition pfree (p : ptr) : M unit :=
  void_cast p.

(** *** Error data *)

Definition CopyErrorData : M ptr :=
  mret NULL.

Definition FreeErrorData (edata : ptr) : M unit :=
  void_cast edata.

(** *** Error reporting functions

    The variadic ones take the format pointer and the list of the
    remaining arguments. *)

Definition errcode (sqlerrcode : Z) : M Z :=
  void_cast sqlerrcode;; mret 0.

Definition errmsg (fmt : ptr) (va : list val) : M Z :=
  void_cast fmt;; mret 0.

Definition errdetail (fmt : ptr) (va : list val) : M Z :=
  void_cast fmt;; mret 0.

Definition errhint (fmt : ptr) (va : list val) : M Z :=
  void_cast fmt;; mret 0.

Definition errcontext_msg (fmt : ptr) (va : list val) : M Z :=
  void_cast fmt;; mret 0.

Definition errstart (elevel : Z) (domain : ptr) : M Z :=
  void_cast elevel;; void_cast domain;; mret 0.

Definition errfinish (filename : ptr) (lineno : Z) (funcname : ptr) : M unit :=
  void_cast filename;; void_cast lineno;; void_cast funcname.

(** *** Transaction / type helpers *)

Definition GetCurrentTransactionIdIfAny : M Z :=
  mret 0.

Definition IsBinaryCoercible (a b : Z) : M Z :=
  void_cast a;; void_cast b;; mret 0.

Definition format_type_extended (oid typmod flags : Z) : M ptr :=
  void_cast oid;; void_cast typmod;; void_cast flags;;
  mret NULL.

(** *** SPI functions *)

Definition SPI_connect : M Z :=
  mret (-1).

Definition SPI_finish : M Z :=
  mret (-1).

Definition SPI_execute (cmd : ptr) (ro cnt : Z) : M Z :=
  void_cast cmd;; void_cast ro;; void_cast cnt;;
  mret (-1).

Definition SPI_execute_with_args
    (cmd : ptr) (nargs : Z) (argtypes values nulls : ptr) (ro cnt : Z)
    : M Z :=
  void_cast cmd;; void_cast nargs;; void_cast argtypes;; void_cast values;;
  void_cast nulls;; void_cast ro;; void_cast cnt;;
  mret (-1).

Definition SPI_getbinval (tuple tupdesc : ptr) (fnumber : Z) (isnull : ptr)
    : M ptr :=
  void_cast tuple;; void_cast tupdesc;; void_cast fnumber;;
  (if ptr_is_true isnull then store_int isnull 1 else mret tt);;
  mret NULL.

Definition SPI_gettypeid (tupdesc : ptr) (fnumber : Z) : M Z :=
  void_cast tupdesc;; void_cast fnumber;;
  mret 0.

(** ** Calls

    One constructor per function of the file, carrying the arguments of a
    call; [exec] runs the call and injects the result into [retval]. *)

Inductive stub : Set :=
| sym_palloc0
| sym_AllocSetContextCreateInternal
| sym_MemoryContextDelete
| sym_MemoryContextGetParent
| sym_pfree
| sym_CopyErrorData
| sym_FreeErrorData
| sym_errcode
| sym_errmsg
| sym_errdetail
| sym_errhint
| sym_errcontext_msg
| sym_errstart
| sym_errfinish
| sym_GetCurrentTransactionIdIfAny
| sym_IsBinaryCoercible
| sym_format_type_extended
| sym_SPI_connect
| sym_SPI_finish
| sym_SPI_execute
| sym_SPI_execute_with_args
| sym_SPI_getbinval
| sym_SPI_gettypeid.

#[global] Instance stub_eq_dec : EqDecision stub.
Proof. solve_decision. Defined.

Inductive call : Set :=
| call_palloc0 (size : Z)
| call_AllocSetContextCreateInternal
    (parent name : ptr) (minContextSize initBlockSize maxBlockSize : Z)
| call_MemoryContextDelete (ctx : ptr)
| call_MemoryContextGetParent (ctx : ptr)
| call_pfree (p : ptr)
| call_CopyErrorData
| call_FreeErrorData (edata : ptr)
| call_errcode (sqlerrcode : Z)
| call_errmsg (fmt : ptr) (va : list val)
| call_errdetail (fmt : ptr) (va : list val)
| call_errhint (fmt : ptr) (va : list val)
| call_errcontext_msg (fmt : ptr) (va : list val)
| call_errstart (elevel : Z) (domain : ptr)
| call_errfinish (filename : ptr) (lineno : Z) (funcname : ptr)
| call_GetCurrentTransactionIdIfAny
| call_IsBinaryCoercible (a b : Z)
| call_format_type_extended (oid typmod flags : Z)
| call_SPI_connect
| call_SPI_finish
| call_SPI_execute (cmd : ptr) (ro cnt : Z)
| call_SPI_execute_with_args
    (cmd : ptr) (nargs : Z) (argtypes values nulls : ptr) (ro cnt : Z)
| call_SPI_getbinval (tuple tupdesc : ptr) (fnumber : Z) (isnull : ptr)
| call_SPI_gettypeid (tupdesc : ptr) (fnumber : Z).

Definition callee (c : call) : stub :=
  match c with
  | call_palloc0 _ => sym_palloc0
  | call_AllocSetContextCreateInternal _ _ _ _ _ =>
      sym_AllocSetContextCreateInternal
  | call_MemoryContextDelete _ => sym_MemoryContextDelete
  | call_MemoryContextGetParent _ => sym_MemoryContextGetParent
  | call_pfree _ => sym_pfree
  | call_CopyErrorData => sym_CopyErrorData
  | call_FreeErrorData _ => sym_FreeErrorData
  | call_errcode _ => sym_errcode
  | call_errmsg _ _ => sym_errmsg
  | call_errdetail _ _ => sym_errdetail
  | call_errhint _ _ => sym_errhint
  | call_errcontext_msg _ _ => sym_errcontext_msg
  | call_errstart _ _ => sym_errstart
  | call_errfinish _ _ _ => sym_errfinish
  | call_GetCurrentTransactionIdIfAny => sym_GetCurrentTransactionIdIfAny
  | call_IsBinaryCoercible _ _ => sym_IsBinaryCoercible
  | call_format_type_extended _ _ _ => sym_format_type_extended
  | call_SPI_connect => sym_SPI_connect
  | call_SPI_finish => sym_SPI_finish
  | call_SPI_execute _ _ _ => sym_SPI_execute
  | call_SPI_execute_with_args _ _ _ _ _ _ _ => sym_SPI_execute_with_args
  | call_SPI_getbinval _ _ _ _ => sym_SPI_getbinval
  | call_SPI_gettypeid _ _ => sym_SPI_gettypeid
  end.

(** What a call hands back to its caller. *)
Inductive retval : Set :=
| Rvoid
| Rptr (p : ptr)
| Rint (n : Z)
| Ruint32 (n : Z).

#[global] Instance retval_eq_dec : EqDecision retval.
Proof. solve_decision. Defined.

Definition returning {A : Type} (inj : A → retval) (body : M A) : M retval :=
  r ← body; mret (inj r).

Definition exec (c : call) : M retval :=
  match c with
  | call_palloc0 size => returning Rptr (palloc0 size)
  | call_AllocSetContextCreateInternal parent name mn ini mx =>
      returning Rptr (AllocSetContextCreateInternal parent name mn ini mx)
  | call_MemoryContextDelete ctx =>
      returning (λ _, Rvoid) (MemoryContextDelete ctx)
  | call_MemoryContextGetParent ctx =>
      returning Rptr (MemoryContextGetParent ctx)
  | call_pfree p => returning (λ _, Rvoid) (pfree p)
  | call_CopyErrorData => returning Rptr CopyErrorData
  | call_FreeErrorData edata => returning (λ _, Rvoid) (FreeErrorData edata)
  | call_errcode sqlerrcode => returning Rint (errcode sqlerrcode)
  | call_errmsg fmt va => returning Rint (errmsg fmt va)
  | call_errdetail fmt va => returning Rint (errdetail fmt va)
  | call_errhint fmt va => returning Rint (errhint fmt va)
  | call_errcontext_msg fmt va => returning Rint (errcontext_msg fmt va)
  | call_errstart elevel domain => returning Rint (errstart elevel domain)
  | call_errfinish filename lineno funcname =>
      returning (λ _, Rvoid) (errfinish filename lineno funcname)
  | call_GetCurrentTransactionIdIfAny =>
      returning Ruint32 GetCurrentTransactionIdIfAny
  | call_IsBinaryCoercible a b => returning Rint (IsBinaryCoercible a b)
  | call_format_type_extended oid typmod flags =>
      returning Rptr (format_type_extended oid typmod flags)
  | call_SPI_connect => returning Rint SPI_connect
  | call_SPI_finish => returning Rint SPI_finish
  | call_SPI_execute cmd ro cnt => returning Rint (SPI_execute cmd ro cnt)
  | call_SPI_execute_with_args cmd nargs argtypes values nulls ro cnt =>
      returning Rint
        (SPI_execute_with_args cmd nargs argtypes values nulls ro cnt)
  | call_SPI_getbinval tuple tupdesc fnumber isnull =>
      returning Rptr (SPI_getbinval tuple tupdesc fnumber isnull)
  | call_SPI_gettypeid tupdesc fnumber =>
      returning Ruint32 (SPI_gettypeid tupdesc fnumber)
  end.

(** A sequence of calls, each running in the memory the previous one left. *)
Fixpoint exec_all (cs : list call) (m : mem) : option (list retval * mem) :=
  match cs with
  | [] => Some ([], m)
  | c :: cs' =>
      match exec c m with
      | Some (r, m') =>
          match exec_all cs' m' with
          | Some (rs, m'') => Some (r :: rs, m'')
          | None => None
          end
      | None => None
      end
  end.

(** ** Well-typed calls *)

(** An [int *] argument is well typed when it is null or designates an
    [int] object of the memory. *)
Definition valid_int_ptr (m : mem) (p : ptr) : Prop :=
  match p with
  | NULL => True
  | Addr l => ∃ n, m !! l = Some (Vint n)
  end.

(** The only pointer a stand-in dereferences is the [isnull] argument of
    [SPI_getbinval]; integer and opaque-pointer arguments are never
    inspected, so nothing is required of them. *)
Definition well_typed_call (m : mem) (c : call) : Prop :=
  match c with
  | call_SPI_getbinval _ _ _ isnull => valid_int_ptr m isnull
  | _ => True
  end.

(** ** Sentinels as documented

    Following the specification: allocation-style functions give the null
    representation, error-reporting functions the zero status, the SPI
    status functions a negative status, the remaining helpers zero; a
    function declared [void] gives nothing. *)
Definition documented_sentinel (f : stub) : retval :=
  match f with
  | sym_palloc0
  | sym_AllocSetContextCreateInternal
  | sym_MemoryContextGetParent
  | sym_CopyErrorData
  | sym_format_type_extended
  | sym_SPI_getbinval => Rptr NULL
  | sym_MemoryContextDelete
  | sym_pfree
  | sym_FreeErrorData
  | sym_errfinish => Rvoid
  | sym_errcode
  | sym_errmsg
  | sym_errdetail
  | sym_errhint
  | sym_errcontext_msg
  | sym_errstart
  | sym_IsBinaryCoercible => Rint 0
  | sym_GetCurrentTransactionIdIfAny
  | sym_SPI_gettypeid => Ruint32 0
  | sym_SPI_connect
  | sym_SPI_finish
  | sym_SPI_execute
  | sym_SPI_execute_with_args => Rint (-1)
  end.

(** A result a caller could take for success: a non-null handle, or a
    positive status, count or identifier. *)
Definition success_looking (r : retval) : Prop :=
  match r with
  | Rvoid => False
  | Rptr p => p ≠ NULL
  | Rint n => 0 < n
  | Ruint32 n => 0 < n
  end.

(** A call is free of side effects when it returns in the memory it
    started in, whatever that memory is. *)
Definition side_effect_free (c : call) : Prop :=
  ∀ m r m', exec c m = Some (r, m') → m' = m.

(** The footprint of a call: the one location it may store to. *)
Definition written (c : call) : option loc :=
  match c with
  | call_SPI_getbinval _ _ _ (Addr l) => Some l
  | _ => None
  end.

(** The memory a well-typed call leaves behind. *)
Definition mem_after (c : call) (m : mem) : mem :=
  match written c with
  | Some l => <[l := Vint 1]> m
  | None => m
  end.

(** An example of a caller's memory: the loaded globals, an [int] flag
    holding 0 at object 1 and a command string at object 2. *)
Definition caller_mem : mem :=
  <[ObjAddr 1 := Vint 0]>
    (<[ObjAddr 2 := Vchars "SELECT 1"]> Globals.init_mem).

(** The locations a sequence of calls may store to. *)
Definition footprint (cs : list call) : list loc :=
  omap written cs.

(** The memory a sequence of well-typed calls leaves behind. *)
Definition mem_after_all (cs : list call) (m : mem) : mem :=
  foldl (λ m' c, mem_after c m') m cs.

(** The sentinels a sequence of calls returns, in order. *)
Definition sentinels (cs : list call) : list retval :=
  (λ c, documented_sentinel (callee c)) <$> cs.

(** An example of a test that strays into the server interface: it
    connects, fetches a value with the flag at object 1 as out-parameter,
    and releases a memory context. *)
Definition caller_calls : list call :=
  [ call_SPI_connect;
    call_SPI_getbinval NULL NULL 1 (Addr (ObjAddr 1));
    call_pfree (Addr (GlobalAddr TopMemoryContext)) ].

(** ** Basic facts about the monad and the store *)

Ltac run_body :=
  unfold returning, void_cast, mbind, M_bind, mret, M_ret; simpl.

Lemma store_int_valid (m : mem) l old n :
  m !! l = Some (Vint old) →
  store_int (Addr l) n m = Some (tt, <[l := Vint n]> m).
Proof. intros Hl. unfold store_int. by rewrite Hl. Qed.

Lemma store_int_inv (m m' : mem) p n u :
  store_int p n m = Some (u, m') →
  ∃ l old, p = Addr l ∧ m !! l = Some (Vint old) ∧ m' = <[l := Vint n]> m.
Proof.
  unfold store_int. destruct p as [|l]; [done|].
  destruct (m !! l) as [[]|] eqn:Hl; try done.
  intros [= _ <-]. by exists l, n0.
Qed.

Lemma SPI_getbinval_NULL tuple tupdesc fnumber (m : mem) :
  SPI_getbinval tuple tupdesc fnumber NULL m = Some (NULL, m).
Proof. reflexivity. Qed.

Lemma SPI_getbinval_Addr tuple tupdesc fnumber l old (m : mem) :
  m !! l = Some (Vint old) →
  SPI_getbinval tuple tupdesc fnumber (Addr l) m
  = Some (NULL, <[l := Vint 1]> m).
Proof.
  intros Hl. unfold SPI_getbinval. run_body. by rewrite Hl.
Qed.

Lemma SPI_getbinval_inv tuple tupdesc fnumber isnull (m m' : mem) r :
  SPI_getbinval tuple tupdesc fnumber isnull m = Some (r, m') →
  r = NULL ∧
  (isnull = NULL ∧ m' = m ∨
   ∃ l old, isnull = Addr l ∧ m !! l = Some (Vint old) ∧
            m' = <[l := Vint 1]> m).
Proof.
  destruct isnull as [|l].
  - rewrite SPI_getbinval_NULL. intros [= <- <-]. split; [|left]; done.
  - unfold SPI_getbinval. run_body.
    destruct (m !! l) as [[]|] eqn:Hl; try done.
    intros [= <- <-]. split; [done|]. right. by exists l, n.
Qed.

Lemma exec_well_typed c (m : mem) :
  well_typed_call m c →
  exec c m = Some (documented_sentinel (callee c), mem_after c m).
Proof.
  destruct c; try reflexivity.
  destruct isnull as [|l]; [reflexivity|].
  intros [old Hl]. unfold exec. run_body.
  by rewrite (SPI_getbinval_Addr tuple tupdesc fnumber l old m Hl).
Qed.

Lemma exec_inv c (m m' : mem) r :
  exec c m = Some (r, m') →
  well_typed_call m c ∧ r = documented_sentinel (callee c) ∧
  m' = mem_after c m.
Proof.
  destruct c; try (intros [= <- <-]; by repeat split).
  unfold exec. run_body.
  destruct (SPI_getbinval tuple tupdesc fnumber isnull m)
    as [[p m1]|] eqn:Hb; [|done].
  intros [= <- <-].
  apply SPI_getbinval_inv in Hb as [-> [[-> ->]|(l & old & -> & Hl & ->)]].
  - by repeat split.
  - repeat split. by exists old.
Qed.

Lemma mem_after_other c (m : mem) l :
  written c ≠ Some l → mem_after c m !! l = m !! l.
Proof.
  unfold mem_after. destruct (written c) as [l'|]; [|done].
  intros Hne. apply lookup_insert_ne. congruence.
Qed.

Lemma mem_after_written c (m : mem) l :
  written c = Some l → mem_after c m !! l = Some (Vint 1).
Proof. unfold mem_after. intros ->. apply lookup_insert_eq. Qed.

(** A well-typed call never has a global in its footprint: no global is
    an [int] object. *)
Lemma written_not_global c (m : mem) g :
  Globals.well_typed m → well_typed_call m c →
  written c ≠ Some (GlobalAddr g).
Proof.
  intros Hg Hc Hw. destruct c; try done.
  destruct isnull as [|l]; [done|]. injection Hw as ->.
  destruct Hc as [n Hn]. destruct (Hg g) as (v & Hv & Hty).
  rewrite Hn in Hv. injection Hv as <-. by destruct g.
Qed.

Lemma exec_preserves_globals c (m m' : mem) r :
  Globals.well_typed m → exec c m = Some (r, m') →
  ∀ g, m' !! GlobalAddr g = m !! GlobalAddr g.
Proof.
  intros Hg Hex g. apply exec_inv in Hex as (Hc & _ & ->).
  apply mem_after_other. by eapply written_not_global.
Qed.

Lemma exec_preserves_well_typed c (m m' : mem) r :
  Globals.well_typed m → exec c m = Some (r, m') → Globals.well_typed m'.
Proof.
  intros Hg Hex g. rewrite (exec_preserves_globals c m m' r Hg Hex g).
  apply Hg.
Qed.

Lemma exec_all_preserves_globals cs :
  ∀ (m m' : mem) rs,
    Globals.well_typed m → exec_all cs m = Some (rs, m') →
    ∀ g, m' !! GlobalAddr g = m !! GlobalAddr g.
Proof.
  induction cs as [|c cs IH]; intros m m' rs Hg; simpl.
  - by intros [= _ <-].
  - destruct (exec c m) as [[r m1]|] eqn:Hc; [|done].
    destruct (exec_all cs m1) as [[rs1 m2]|] eqn:Hcs; [|done].
    intros [= _ <-] g.
    rewrite (IH m1 m2 rs1 (exec_preserves_well_typed c m m1 r Hg Hc) Hcs g).
    by eapply exec_preserves_globals.
Qed.

Lemma init_mem_lookup g :
  Globals.init_mem !! GlobalAddr g = Some (Globals.initializer g).
Proof. by destruct g. Qed.

Lemma init_mem_well_typed : Globals.well_typed Globals.init_mem.
Proof.
  intros g. exists (Globals.initializer g). split.
  - apply init_mem_lookup.
  - by destruct g.
Qed.

Lemma caller_mem_well_typed : Globals.well_typed caller_mem.
Proof.
  intros g. exists (Globals.initializer g). split.
  - unfold caller_mem. rewrite !lookup_insert_ne by done.
    apply init_mem_lookup.
  - by destruct g.
Qed.

Lemma sentinel_not_success_looking f :
  ¬ success_looking (documented_sentinel f).
Proof. destruct f; simpl; solve [tauto | lia | congruence]. Qed.

(** ** The stand-ins on the example memory *)

Example SPI_execute_select :
  SPI_execute (Addr (ObjAddr 2)) 1 10 caller_mem = Some (-1, caller_mem).
Proof. reflexivity. Qed.

Example SPI_getbinval_flag :
  SPI_getbinval NULL NULL 1 (Addr (ObjAddr 1)) caller_mem
  = Some (NULL, <[ObjAddr 1 := Vint 1]> caller_mem).
Proof. reflexivity. Qed.

Example SPI_getbinval_on_string_undefined :
  SPI_getbinval NULL NULL 1 (Addr (ObjAddr 2)) caller_mem = None.
Proof. reflexivity. Qed.

Example errmsg_with_arguments :
  errmsg (Addr (ObjAddr 2)) [Vint 42; Vptr NULL] caller_mem
  = Some (0, caller_mem).
Proof. reflexivity. Qed.

(** ** SPI stand-ins report failure *)

Section spi_status.
Variable m : mem.

(** C1: [SPI_connect] and [SPI_finish] return -1; [SPI_execute] and
    [SPI_execute_with_args] return -1 for every command string, read-only
    flag, argument list and row limit.  None of them touches the memory. *)
Theorem spi_status_is_minus_one :
  SPI_connect m = Some (-1, m) ∧
  SPI_finish m = Some (-1, m) ∧
  (∀ cmd ro cnt, SPI_execute cmd ro cnt m = Some (-1, m)) ∧
  (∀ cmd nargs argtypes values nulls ro cnt,
     SPI_execute_with_args cmd nargs argtypes values nulls ro cnt m
     = Some (-1, m)).
Proof. repeat split. Qed.

End spi_status.

(** ** The out-parameter of SPI_getbinval *)

(** C2: for every tuple, tuple descriptor and field number, [SPI_getbinval]
    returns the null handle and sets the [int] its [isnull] out-parameter
    points to to 1. *)
Theorem SPI_getbinval_sets_isnull
    tuple tupdesc fnumber l old (m : mem) :
  m !! l = Some (Vint old) →
  ∃ m', SPI_getbinval tuple tupdesc fnumber (Addr l) m = Some (NULL, m') ∧
        m' !! l = Some (Vint 1).
Proof.
  intros Hl. exists (<[l := Vint 1]> m). split.
  - by eapply SPI_getbinval_Addr.
  - apply lookup_insert_eq.
Qed.

Lemma SPI_getbinval_sets_isnull_witness :
  caller_mem !! ObjAddr 1 = Some (Vint 0) ∧
  ∃ m', SPI_getbinval (Addr (ObjAddr 7)) NULL 3 (Addr (ObjAddr 1)) caller_mem
        = Some (NULL, m') ∧
        m' !! ObjAddr 1 = Some (Vint 1).
Proof.
  split; [reflexivity|].
  apply (SPI_getbinval_sets_isnull
           (Addr (ObjAddr 7)) NULL 3 (ObjAddr 1) 0 caller_mem).
  reflexivity.
Defined.

(** C9: with a null [isnull] pointer, [SPI_getbinval] stores nothing: it
    returns NULL normally and leaves the memory as it found it.  The
    condition guarding the store is false for NULL, and the store it guards
    would have been undefined there. *)
Theorem SPI_getbinval_null_isnull_no_store tuple tupdesc fnumber (m : mem) :
  SPI_getbinval tuple tupdesc fnumber NULL m = Some (NULL, m) ∧
  ptr_is_true NULL = false ∧
  store_int NULL 1 m = None.
Proof. repeat split. Qed.

(** ** Fixed results by family *)

Section fixed_results.
Variable m : mem.

(** C4: [errcode], [errmsg], [errdetail], [errhint], [errcontext_msg] and
    [errstart] return 0 for all arguments, and [errfinish] returns with
    the memory unchanged. *)
Theorem error_reporting_returns_zero :
  (∀ sqlerrcode, errcode sqlerrcode m = Some (0, m)) ∧
  (∀ fmt va, errmsg fmt va m = Some (0, m)) ∧
  (∀ fmt va, errdetail fmt va m = Some (0, m)) ∧
  (∀ fmt va, errhint fmt va m = Some (0, m)) ∧
  (∀ fmt va, errcontext_msg fmt va m = Some (0, m)) ∧
  (∀ elevel domain, errstart elevel domain m = Some (0, m)) ∧
  (∀ filename lineno funcname,
     errfinish filename lineno funcname m = Some (tt, m)).
Proof. repeat split. Qed.

(** C5: [palloc0], [AllocSetContextCreateInternal], [CopyErrorData],
    [MemoryContextGetParent] and [format_type_extended] return NULL for
    every argument tuple. *)
Theorem allocation_returns_NULL :
  (∀ size, palloc0 size m = Some (NULL, m)) ∧
  (∀ parent name minContextSize initBlockSize maxBlockSize,
     AllocSetContextCreateInternal
       parent name minContextSize initBlockSize maxBlockSize m
     = Some (NULL, m)) ∧
  CopyErrorData m = Some (NULL, m) ∧
  (∀ ctx, MemoryContextGetParent ctx m = Some (NULL, m)) ∧
  (∀ oid typmod flags,
     format_type_extended oid typmod flags m = Some (NULL, m)).
Proof. repeat split. Qed.

(** C10: [IsBinaryCoercible] returns 0 for every pair of type OIDs, and
    in particular for a type paired with itself. *)
Theorem IsBinaryCoercible_always_false :
  (∀ a b, IsBinaryCoercible a b m = Some (0, m)) ∧
  (∀ a, IsBinaryCoercible a a m = Some (0, m)).
Proof. split; reflexivity. Qed.

End fixed_results.

(** ** Every stand-in returns its sentinel *)

(** C3: a well-typed call to any stand-in returns normally, its result is
    the documented sentinel of the function called, and that sentinel is
    neither a non-null handle nor a positive value. *)
Theorem stubs_return_documented_sentinel c (m : mem) :
  well_typed_call m c →
  (∃ m', exec c m = Some (documented_sentinel (callee c), m')) ∧
  ¬ success_looking (documented_sentinel (callee c)).
Proof.
  intros Hc. split.
  - exists (mem_after c m). by apply exec_well_typed.
  - apply sentinel_not_success_looking.
Qed.

Lemma stubs_return_documented_sentinel_witness :
  well_typed_call caller_mem
    (call_SPI_getbinval NULL NULL 1 (Addr (ObjAddr 1))) ∧
  (∃ m', exec (call_SPI_getbinval NULL NULL 1 (Addr (ObjAddr 1))) caller_mem
         = Some (Rptr NULL, m')) ∧
  ¬ success_looking (Rptr NULL).
Proof.
  split; [by exists 0|].
  apply (stubs_return_documented_sentinel
           (call_SPI_getbinval NULL NULL 1 (Addr (ObjAddr 1))) caller_mem).
  by exists 0.
Defined.

(** C7: a call returns the same value whatever memory it runs in and
    however often it is repeated: in two runs, and twice in a row in one
    run, the results are equal. *)
Theorem stubs_deterministic c (m1 m2 : mem) :
  well_typed_call m1 c → well_typed_call m2 c →
  ∃ r m1' m1'' m2',
    exec c m1 = Some (r, m1') ∧
    exec c m1' = Some (r, m1'') ∧
    exec c m2 = Some (r, m2').
Proof.
  intros H1 H2.
  assert (well_typed_call (mem_after c m1) c) as H1'.
  { destruct c; try done. destruct isnull as [|l]; [done|].
    exists 1. apply (mem_after_written _ m1 l). reflexivity. }
  exists (documented_sentinel (callee c)), (mem_after c m1),
    (mem_after c (mem_after c m1)), (mem_after c m2).
  by rewrite !exec_well_typed.
Qed.

Lemma stubs_deterministic_witness :
  well_typed_call caller_mem
    (call_SPI_execute (Addr (ObjAddr 2)) 1 10) ∧
  well_typed_call Globals.init_mem
    (call_SPI_execute (Addr (ObjAddr 2)) 1 10) ∧
  ∃ r m1' m1'' m2',
    exec (call_SPI_execute (Addr (ObjAddr 2)) 1 10) caller_mem
    = Some (r, m1') ∧
    exec (call_SPI_execute (Addr (ObjAddr 2)) 1 10) m1' = Some (r, m1'') ∧
    exec (call_SPI_execute (Addr (ObjAddr 2)) 1 10) Globals.init_mem
    = Some (r, m2').
Proof.
  split; [exact I|]. split; [exact I|].
  apply (stubs_deterministic
           (call_SPI_execute (Addr (ObjAddr 2)) 1 10)
           caller_mem Globals.init_mem); exact I.
Defined.

(** ** Globals *)

(** C6: after loading, each of the thirteen globals holds the null or zero
    value of its type; and in a memory where the globals hold objects of
    their declared types, no call and no sequence of calls changes the
    value of any global. *)
Theorem globals_null_and_never_mutated :
  (∀ g, Globals.init_mem !! GlobalAddr g
        = Some (Globals.zero_of (Globals.declared_type g))) ∧
  (∀ c (m m' : mem) r,
     Globals.well_typed m → exec c m = Some (r, m') →
     ∀ g, m' !! GlobalAddr g = m !! GlobalAddr g) ∧
  (∀ cs (m m' : mem) rs,
     Globals.well_typed m → exec_all cs m = Some (rs, m') →
     ∀ g, m' !! GlobalAddr g = m !! GlobalAddr g).
Proof.
  split; [|split].
  - intros g. rewrite init_mem_lookup. by destruct g.
  - intros c m m' r. apply exec_preserves_globals.
  - intros cs m m' rs. apply exec_all_preserves_globals.
Qed.

Lemma globals_null_and_never_mutated_witness :
  Globals.well_typed caller_mem ∧
  exec_all [call_SPI_connect;
            call_SPI_getbinval NULL NULL 1 (Addr (ObjAddr 1));
            call_pfree (Addr (GlobalAddr TopMemoryContext))] caller_mem
  = Some ([Rint (-1); Rptr NULL; Rvoid],
          <[ObjAddr 1 := Vint 1]> caller_mem) ∧
  ∀ g, <[ObjAddr 1 := Vint 1]> caller_mem !! GlobalAddr g
       = caller_mem !! GlobalAddr g.
Proof.
  split; [exact caller_mem_well_typed|]. split; [reflexivity|].
  apply (proj2 (proj2 globals_null_and_never_mutated)
           [call_SPI_connect;
            call_SPI_getbinval NULL NULL 1 (Addr (ObjAddr 1));
            call_pfree (Addr (GlobalAddr TopMemoryContext))]
           caller_mem (<[ObjAddr 1 := Vint 1]> caller_mem)
           [Rint (-1); Rptr NULL; Rvoid]
           caller_mem_well_typed).
  reflexivity.
Defined.

(** ** Side effects *)

(** C8 as stated fails: [SPI_getbinval] stores through its out-parameter.
    Called on the caller's flag at object 1, it leaves 1 where 0 was. *)
Lemma SPI_getbinval_not_side_effect_free :
  exec (call_SPI_getbinval NULL NULL 1 (Addr (ObjAddr 1))) caller_mem
  = Some (Rptr NULL, <[ObjAddr 1 := Vint 1]> caller_mem) ∧
  <[ObjAddr 1 := Vint 1]> caller_mem ≠ caller_mem ∧
  ¬ side_effect_free (call_SPI_getbinval NULL NULL 1 (Addr (ObjAddr 1))).
Proof.
  assert (<[ObjAddr 1 := Vint 1]> caller_mem ≠ caller_mem) as Hne.
  { intros Heq. apply (f_equal (λ m : mem, m !! ObjAddr 1)) in Heq.
    rewrite lookup_insert_eq in Heq. discriminate Heq. }
  split; [reflexivity|]. split; [exact Hne|].
  intros Hfree. apply Hne. by eapply Hfree.
Qed.

(** C8, amended: every well-typed call returns the fixed sentinel of its
    function; a call to any function other than [SPI_getbinval], or to
    [SPI_getbinval] with a null [isnull], leaves the whole memory
    unchanged; [SPI_getbinval] with a non-null [isnull] stores 1 into the
    [int] it points to and changes no other location, and no global. *)
Theorem stubs_frame c (m : mem) :
  well_typed_call m c →
  ∃ m', exec c m = Some (documented_sentinel (callee c), m') ∧
    match c with
    | call_SPI_getbinval _ _ _ (Addr l) =>
        m' = <[l := Vint 1]> m ∧ (∀ l', l' ≠ l → m' !! l' = m !! l')
    | _ => m' = m
    end ∧
    (Globals.well_typed m → ∀ g, m' !! GlobalAddr g = m !! GlobalAddr g).
Proof.
  intros Hc. exists (mem_after c m). split; [by apply exec_well_typed|].
  split.
  - destruct c; try reflexivity.
    destruct isnull as [|l]; [reflexivity|]. split; [reflexivity|].
    intros l' Hne. apply mem_after_other. simpl. congruence.
  - intros Hg g. apply mem_after_other. by eapply written_not_global.
Qed.

Lemma stubs_frame_witness :
  well_typed_call caller_mem
    (call_SPI_getbinval NULL NULL 1 (Addr (ObjAddr 1))) ∧
  ∃ m', exec (call_SPI_getbinval NULL NULL 1 (Addr (ObjAddr 1))) caller_mem
        = Some (Rptr NULL, m') ∧
    (m' = <[ObjAddr 1 := Vint 1]> caller_mem ∧
     ∀ l', l' ≠ ObjAddr 1 → m' !! l' = caller_mem !! l') ∧
    (Globals.well_typed caller_mem →
     ∀ g, m' !! GlobalAddr g = caller_mem !! GlobalAddr g).
Proof.
  split; [by exists 0|].
  apply (stubs_frame
           (call_SPI_getbinval NULL NULL 1 (Addr (ObjAddr 1))) caller_mem).
  by exists 0.
Defined.

(** ** Sequences of calls *)

Lemma well_typed_call_mem_after c' c (m : mem) :
  well_typed_call m c' →
  well_typed_call (mem_after c' m) c ↔ well_typed_call m c.
Proof.
  intros Hc'. destruct c; try done.
  destruct isnull as [|l]; [done|]. simpl.
  destruct (written c') as [l'|] eqn:Hw.
  - destruct (decide (l' = l)) as [->|Hne].
    + rewrite (mem_after_written c' m l Hw).
      destruct c'; try done. destruct isnull as [|l0]; [done|].
      injection Hw as ->. destruct Hc' as [n Hn]. rewrite Hn. split; eauto.
    + rewrite mem_after_other; [done|]. congruence.
  - rewrite mem_after_other; [done|]. congruence.
Qed.

Lemma exec_all_well_typed cs :
  ∀ m : mem, Forall (well_typed_call m) cs →
    exec_all cs m = Some (sentinels cs, mem_after_all cs m).
Proof.
  induction cs as [|c cs IH]; intros m Hcs; [done|].
  apply Forall_cons in Hcs as [Hc Hcs]. simpl.
  rewrite (exec_well_typed c m Hc), (IH (mem_after c m)); [done|].
  eapply Forall_impl; [exact Hcs|].
  intros c0 Hc0. by apply well_typed_call_mem_after.
Qed.

Lemma exec_all_inv cs :
  ∀ (m m' : mem) rs, exec_all cs m = Some (rs, m') →
    Forall (well_typed_call m) cs ∧ rs = sentinels cs ∧
    m' = mem_after_all cs m.
Proof.
  induction cs as [|c cs IH]; intros m m' rs; simpl.
  - by intros [= <- <-].
  - destruct (exec c m) as [[r m1]|] eqn:Hc; [|done].
    destruct (exec_all cs m1) as [[rs1 m2]|] eqn:Hcs; [|done].
    intros [= <- <-].
    apply exec_inv in Hc as (Hc & -> & ->).
    apply IH in Hcs as (Hcs & -> & ->).
    split; [|done]. apply Forall_cons. split; [done|].
    eapply Forall_impl; [exact Hcs|].
    intros c0 Hc0. by eapply well_typed_call_mem_after.
Qed.

Lemma footprint_cons c cs :
  footprint (c :: cs)
  = match written c with
    | Some l => l :: footprint cs
    | None => footprint cs
    end.
Proof. reflexivity. Qed.

Lemma mem_after_all_lookup cs :
  ∀ (m : mem) l,
    mem_after_all cs m !! l
    = if decide (l ∈ footprint cs) then Some (Vint 1) else m !! l.
Proof.
  induction cs as [|c cs IH]; intros m l.
  - destruct (decide (l ∈ footprint [])) as [Hin|]; [|done].
    by apply elem_of_nil in Hin.
  - change (mem_after_all (c :: cs) m) with (mem_after_all cs (mem_after c m)).
    rewrite IH, footprint_cons.
    destruct (written c) as [l'|] eqn:Hw.
    + destruct (decide (l ∈ footprint cs)) as [Hin|Hnin];
      destruct (decide (l ∈ l' :: footprint cs)) as [Hin'|Hnin']; try done.
      * destruct Hnin'. apply elem_of_cons. by right.
      * apply elem_of_cons in Hin' as [->|Hin']; [|done].
        by apply mem_after_written.
      * apply mem_after_other. rewrite Hw. intros [= ->].
        apply Hnin', elem_of_cons. by left.
    + destruct (decide (l ∈ footprint cs)); [done|].
      apply mem_after_other. by rewrite Hw.
Qed.

Lemma footprint_is_int cs (m : mem) l :
  Forall (well_typed_call m) cs → l ∈ footprint cs →
  ∃ n, m !! l = Some (Vint n).
Proof.
  intros Hcs Hl. apply list_elem_of_omap in Hl as (c & Hc & Hw).
  rewrite Forall_forall in Hcs. specialize (Hcs c Hc).
  destruct c; try done. destruct isnull as [|l0]; [done|].
  by injection Hw as <-.
Qed.

(** X1: the results of a sequence of calls that runs to completion are the
    sentinels of the functions called, one per call and in call order,
    whatever the arguments and the memory; none of them looks like a
    success. *)
Theorem exec_all_returns_sentinels cs (m m' : mem) rs :
  exec_all cs m = Some (rs, m') →
  rs = sentinels cs ∧ length rs = length cs ∧
  Forall (λ r, ¬ success_looking r) rs.
Proof.
  intros Hex. apply exec_all_inv in Hex as (_ & -> & _).
  split; [done|]. split; [apply length_fmap|].
  apply Forall_fmap, Forall_forall. intros c _.
  apply sentinel_not_success_looking.
Qed.

Lemma exec_all_returns_sentinels_witness :
  exec_all caller_calls caller_mem
  = Some ([Rint (-1); Rptr NULL; Rvoid], <[ObjAddr 1 := Vint 1]> caller_mem) ∧
  [Rint (-1); Rptr NULL; Rvoid] = sentinels caller_calls ∧
  length [Rint (-1); Rptr NULL; Rvoid] = length caller_calls ∧
  Forall (λ r, ¬ success_looking r) [Rint (-1); Rptr NULL; Rvoid].
Proof.
  split; [reflexivity|].
  apply (exec_all_returns_sentinels caller_calls caller_mem
           (<[ObjAddr 1 := Vint 1]> caller_mem)).
  reflexivity.
Defined.


(** X3: after a sequence of calls, a location holds the [int] 1 if it was
    the non-null [isnull] argument of some [SPI_getbinval] call in the
    sequence, and what it held before otherwise. *)
Theorem exec_all_final_memory cs (m m' : mem) rs l :
  exec_all cs m = Some (rs, m') →
  m' !! l = if decide (l ∈ footprint cs) then Some (Vint 1) else m !! l.
Proof.
  intros Hex. apply exec_all_inv in Hex as (_ & _ & ->).
  apply mem_after_all_lookup.
Qed.

Lemma exec_all_final_memory_witness :
  exec_all caller_calls caller_mem
  = Some ([Rint (-1); Rptr NULL; Rvoid], <[ObjAddr 1 := Vint 1]> caller_mem) ∧
  <[ObjAddr 1 := Vint 1]> caller_mem !! ObjAddr 2
  = if decide (ObjAddr 2 ∈ footprint caller_calls)
    then Some (Vint 1) else caller_mem !! ObjAddr 2.
Proof.
  split; [reflexivity|].
  apply (exec_all_final_memory caller_calls caller_mem
           (<[ObjAddr 1 := Vint 1]> caller_mem)
           [Rint (-1); Rptr NULL; Rvoid] (ObjAddr 2)).
  reflexivity.
Defined.

(** X4: no sequence of calls creates, releases or retypes an object: the
    memory has the same objects afterwards, each of the type it had.  In
    particular [palloc0] and [AllocSetContextCreateInternal] allocate
    nothing and [pfree], [MemoryContextDelete] and [FreeErrorData] release
    nothing. *)
Theorem exec_all_keeps_objects cs (m m' : mem) rs :
  exec_all cs m = Some (rs, m') →
  dom m' = dom m ∧ ∀ l, type_of <$> m' !! l = type_of <$> m !! l.
Proof.
  intros Hex. apply exec_all_inv in Hex as (Hcs & _ & ->).
  assert (∀ l, type_of <$> mem_after_all cs m !! l = type_of <$> m !! l)
    as Hty.
  { intros l. rewrite mem_after_all_lookup.
    destruct (decide (l ∈ footprint cs)) as [Hin|]; [|done].
    destruct (footprint_is_int cs m l Hcs Hin) as [n ->]. done. }
  split; [|done].
  apply set_eq. intros l. rewrite !elem_of_dom.
  specialize (Hty l).
  destruct (mem_after_all cs m !! l), (m !! l); simpl in Hty; try done;
    split; intros [? ?]; done.
Qed.

Lemma exec_all_keeps_objects_witness :
  exec_all caller_calls caller_mem
  = Some ([Rint (-1); Rptr NULL; Rvoid], <[ObjAddr 1 := Vint 1]> caller_mem) ∧
  dom (<[ObjAddr 1 := Vint 1]> caller_mem) = dom caller_mem ∧
  ∀ l, type_of <$> <[ObjAddr 1 := Vint 1]> caller_mem !! l
       = type_of <$> caller_mem !! l.
Proof.
  split; [reflexivity|].
  apply (exec_all_keeps_objects caller_calls caller_mem
           (<[ObjAddr 1 := Vint 1]> caller_mem)
           [Rint (-1); Rptr NULL; Rvoid]).
  reflexivity.
Defined.

(** X5: repeating a call changes nothing more: run again in the memory
    it left, a call returns the same value and leaves that memory as it
    is. *)
Theorem exec_twice_is_once c (m m' : mem) r :
  exec c m = Some (r, m') → exec c m' = Some (r, m').
Proof.
  intros Hex. apply exec_inv in Hex as (Hc & -> & ->).
  rewrite exec_well_typed.
  - do 2 f_equal. unfold mem_after.
    destruct (written c); [apply insert_insert_eq|done].
  - by apply well_typed_call_mem_after.
Qed.

Lemma exec_twice_is_once_witness :
  exec (call_SPI_getbinval NULL NULL 1 (Addr (ObjAddr 1))) caller_mem
  = Some (Rptr NULL, <[ObjAddr 1 := Vint 1]> caller_mem) ∧
  exec (call_SPI_getbinval NULL NULL 1 (Addr (ObjAddr 1)))
    (<[ObjAddr 1 := Vint 1]> caller_mem)
  = Some (Rptr NULL, <[ObjAddr 1 := Vint 1]> caller_mem).
Proof.
  split; [reflexivity|].
  apply (exec_twice_is_once
           (call_SPI_getbinval NULL NULL 1 (Addr (ObjAddr 1))) caller_mem).
  reflexivity.
Defined.

(** X6: the order of calls does not matter: any reordering of a sequence
    that runs to completion also runs to completion, ends in the same
    memory, and returns the same results reordered. *)
Theorem exec_all_permutation cs cs' (m m' : mem) rs :
  cs ≡ₚ cs' → exec_all cs m = Some (rs, m') →
  ∃ rs', exec_all cs' m = Some (rs', m') ∧ rs ≡ₚ rs'.
Proof.
  intros Hp Hex. apply exec_all_inv in Hex as (Hcs & -> & ->).
  exists (sentinels cs'). split.
  - rewrite exec_all_well_typed by (by rewrite <- Hp).
    do 2 f_equal. apply map_eq. intros l.
    rewrite !mem_after_all_lookup.
    assert (footprint cs ≡ₚ footprint cs') as Hf
      by (unfold footprint; by rewrite Hp).
    destruct (decide (l ∈ footprint cs)) as [Hin|Hnin];
      destruct (decide (l ∈ footprint cs')) as [Hin'|Hnin']; try done.
    + destruct Hnin'. by rewrite <- Hf.
    + destruct Hnin. by rewrite Hf.
  - unfold sentinels. by rewrite Hp.
Qed.

Lemma exec_all_permutation_witness :
  caller_calls ≡ₚ
    [ call_SPI_getbinval NULL NULL 1 (Addr (ObjAddr 1));
      call_SPI_connect;
      call_pfree (Addr (GlobalAddr TopMemoryContext)) ] ∧
  exec_all caller_calls caller_mem
  = Some ([Rint (-1); Rptr NULL; Rvoid], <[ObjAddr 1 := Vint 1]> caller_mem) ∧
  ∃ rs',
    exec_all [ call_SPI_getbinval NULL NULL 1 (Addr (ObjAddr 1));
               call_SPI_connect;
               call_pfree (Addr (GlobalAddr TopMemoryContext)) ] caller_mem
    = Some (rs', <[ObjAddr 1 := Vint 1]> caller_mem) ∧
    [Rint (-1); Rptr NULL; Rvoid] ≡ₚ rs'.
Proof.
  split; [apply perm_swap|]. split; [reflexivity|].
  apply (exec_all_permutation caller_calls
           [ call_SPI_getbinval NULL NULL 1 (Addr (ObjAddr 1));
             call_SPI_connect;
             call_pfree (Addr (GlobalAddr TopMemoryContext)) ]
           caller_mem (<[ObjAddr 1 := Vint 1]> caller_mem)
           [Rint (-1); Rptr NULL; Rvoid]).
  - apply perm_swap.
  - reflexivity.
Defined.

(** X7: a call leaves the memory exactly as it found it if and only if it
    stores nowhere, or the flag it stores to already held 1. *)
Theorem exec_changes_memory_iff c (m m' : mem) r :
  exec c m = Some (r, m') →
  m' = m ↔ ∀ l, written c = Some l → m !! l = Some (Vint 1).
Proof.
  intros Hex. apply exec_inv in Hex as (_ & _ & ->).
  unfold mem_after. destruct (written c) as [l|].
  - split.
    + intros Heq l' [= <-]. rewrite <- Heq. apply lookup_insert_eq.
    + intros Hl. apply insert_id. by apply Hl.
  - split; [by intros _ l [=]|done].
Qed.

Lemma exec_changes_memory_iff_witness :
  exec (call_SPI_getbinval NULL NULL 1 (Addr (ObjAddr 1))) caller_mem
  = Some (Rptr NULL, <[ObjAddr 1 := Vint 1]> caller_mem) ∧
  (<[ObjAddr 1 := Vint 1]> caller_mem = caller_mem ↔
   ∀ l, written (call_SPI_getbinval NULL NULL 1 (Addr (ObjAddr 1))) = Some l →
        caller_mem !! l = Some (Vint 1)).
Proof.
  split; [reflexivity|].
  apply (exec_changes_memory_iff
           (call_SPI_getbinval NULL NULL 1 (Addr (ObjAddr 1))) caller_mem
           (<[ObjAddr 1 := Vint 1]> caller_mem) (Rptr NULL)).
  reflexivity.
Defined.

(** X8: a sequence of calls in which no [SPI_getbinval] is given a
    non-null [isnull] runs to completion in every memory, returns the
    sentinels of its functions and leaves the memory untouched. *)
Theorem exec_all_without_out_parameter cs (m : mem) :
  Forall (λ c, written c = None) cs →
  exec_all cs m = Some (sentinels cs, m).
Proof.
  revert m. induction cs as [|c cs IH]; intros m Hcs; [done|].
  apply Forall_cons in Hcs as [Hc Hcs]. simpl.
  rewrite exec_well_typed.
  - unfold mem_after. rewrite Hc, (IH m Hcs). done.
  - destruct c; try done. by destruct isnull.
Qed.

Lemma exec_all_without_out_parameter_witness :
  Forall (λ c, written c = None)
    [ call_palloc0 16; call_SPI_execute (Addr (ObjAddr 2)) 0 0;
      call_SPI_getbinval NULL NULL 1 NULL; call_pfree NULL ] ∧
  exec_all [ call_palloc0 16; call_SPI_execute (Addr (ObjAddr 2)) 0 0;
             call_SPI_getbinval NULL NULL 1 NULL; call_pfree NULL ]
    Globals.init_mem
  = Some (sentinels
            [ call_palloc0 16; call_SPI_execute (Addr (ObjAddr 2)) 0 0;
              call_SPI_getbinval NULL NULL 1 NULL; call_pfree NULL ],
          Globals.init_mem).
Proof.
  split; [repeat constructor|].
  apply (exec_all_without_out_parameter
           [ call_palloc0 16; call_SPI_execute (Addr (ObjAddr 2)) 0 0;
             call_SPI_getbinval NULL NULL 1 NULL; call_pfree NULL ]
           Globals.init_mem).
  repeat constructor.
Defined.
